(** * update_index.py: the index synchronizer of hashnode-backup

    A shallow embedding of [src/update_index.py] and the properties of
    its one operation, "synchronize": list the working directory, keep
    the markdown files other than the index, read the entries already in
    [index.md], and append one link line per file whose line is missing.

    Modelling choices.
    - A Python [str] is a sequence of Unicode code points: [list N].
    - The script reads two things from the file system: what
      [os.listdir(".")] returned (a list of names, in the order the
      system gave them) and the text of [index.md] ([None] when
      [os.path.exists] is false).  It changes one thing: the text of
      [index.md].  So a run is a function from the listing and the
      optional text to the optional text.
    - [open(index_file, "r")] is text mode with universal newlines:
      CR LF and a lone CR are read as LF, and iterating the file yields
      the lines with their LF kept.  [open(index_file, "a")] on a POSIX
      system writes LF as it is.
    - Failures of the file system itself (unreadable directory, no write
      permission, text that cannot be decoded or encoded) abort the
      script with an exception and are outside this model. *)

From Stdlib Require Import NArith List Ascii String Bool Lia.
From stdpp Require Import base decidable option list countable gmap sets.
Import ListNotations.

Local Open Scope N_scope.

(** ** Text *)

Abbreviation text := (list N).

(** A literal of the source, as code points. *)
Definition str (s : string) : text :=
  List.map N_of_ascii (list_ascii_of_string s).

Definition LF : N := 10.
Definition CR : N := 13.

(** [str.isspace] on one code point, as CPython's
    [_PyUnicode_IsWhitespace]: U+0009..U+000D, U+001C..U+0020, U+0085,
    U+00A0, U+1680, U+2000..U+200A, U+2028, U+2029, U+202F, U+205F and
    U+3000. *)
Definition isspace (c : N) : bool :=
  ((9 <=? c) && (c <=? 13)) || ((28 <=? c) && (c <=? 32))
  || (c =? 133) || (c =? 160) || (c =? 5760)
  || ((8192 <=? c) && (c <=? 8202))
  || (c =? 8232) || (c =? 8233) || (c =? 8239) || (c =? 8287)
  || (c =? 12288).

(** [s.startswith(prefix)] *)
Fixpoint startswith (s prefix : text) {struct prefix} : bool :=
  match prefix with
  | [] => true
  | p :: prefix' =>
      match s with
      | [] => false
      | c :: s' => (c =? p) && startswith s' prefix'
      end
  end.

(** [s.endswith(suffix)] *)
Definition endswith (s suffix : text) : bool :=
  startswith (rev s) (rev suffix).

(** [s.lstrip()], [s.rstrip()] and [s.strip()]: whitespace is removed at
    both ends. *)
Fixpoint lstrip (s : text) : text :=
  match s with
  | [] => []
  | c :: s' => if isspace c then lstrip s' else s
  end.

Definition rstrip (s : text) : text := rev (lstrip (rev s)).

Definition strip (s : text) : text := rstrip (lstrip s).

(** ** Reading a text file line by line *)

(** Universal newlines: CR LF and a lone CR become LF. *)
Fixpoint universal_newlines (s : text) : text :=
  match s with
  | [] => []
  | c :: r =>
      if c =? CR then
        LF :: match r with
              | [] => []
              | c' :: r' =>
                  if c' =? LF then universal_newlines r'
                  else universal_newlines r
              end
      else c :: universal_newlines r
  end.

(** The lines of a translated text, each with its LF kept; the last one
    has none when the text does not end with LF. *)
Fixpoint split_lines (s : text) : list text :=
  match s with
  | [] => []
  | c :: r =>
      if c =? LF then [LF] :: split_lines r
      else match split_lines r with
           | [] => [[c]]
           | l :: ls => (c :: l) :: ls
           end
  end.

(** [for line in f], for [f] opened in mode "r". *)
Definition file_lines (content : text) : list text :=
  split_lines (universal_newlines content).

(** ** The script *)

Definition index_file : text := str "index.md".

Definition base_url : text :=
  str "https://github.com/arya2004/hashnode-backup/blob/main/".

(** [read_existing_entries]: the argument is the state of the file
    named [index_file], [None] when it does not exist. *)
Definition read_existing_entries (index : option text) : gset text :=
  match index with
  | None => ∅
  | Some content =>
      list_to_set
        (List.map strip
           (List.filter (fun line => startswith line (str "- ["))
              (file_lines content)))
  end.

(** [append_to_index]: mode "a" creates the file when it is absent and
    writes at its end. *)
Definition append_to_index (file_name link : text) (index : option text)
  : option text :=
  Some (default [] index
          ++ (str "- [" ++ file_name ++ str "](" ++ link ++ str ")" ++ [LF])).

(** [md_files] *)
Definition md_files (listing : list text) : list text :=
  List.filter
    (fun f => endswith f (str ".md") && negb (bool_decide (f = index_file)))
    listing.

(** The body of the [for] loop. *)
Definition loop_body (existing_entries : gset text) (index : option text)
    (file_name : text) : option text :=
  let file_link := base_url ++ file_name in
  let entry := str "- [" ++ file_name ++ str "](" ++ file_link ++ str ")" in
  if negb (bool_decide (entry ∈ existing_entries))
  then append_to_index file_name file_link index
  else index.

(** The whole script: [existing_entries] is read once, before the loop. *)
Definition synchronize (listing : list text) (index : option text)
  : option text :=
  let md := md_files listing in
  let existing_entries := read_existing_entries index in
  fold_left (loop_body existing_entries) md index.

(** ** Vocabulary of the properties *)

(** The canonical entry of a file name, [- [<name>](<base_url><name>)]. *)
Definition canonical (file_name : text) : text :=
  str "- [" ++ file_name ++ str "](" ++ (base_url ++ file_name) ++ str ")".

(** What one call of [append_to_index] for a candidate writes. *)
Definition written (file_name : text) : text := canonical file_name ++ [LF].

(** The text of the index file, empty when the file is absent. *)
Definition content_of (index : option text) : text := default [] index.

(** The text is absent, empty, or ends with a line break (LF or CR). *)
Definition terminated (s : text) : bool :=
  match last s with
  | None => true
  | Some c => (c =? LF) || (c =? CR)
  end.

(** No LF and no CR in the text. *)
Definition no_linebreak (s : text) : bool :=
  forallb (fun c => negb ((c =? LF) || (c =? CR))) s.

(** The candidates whose canonical entry is not in the set, in the order
    of the list: those for which the loop calls [append_to_index]. *)
Definition missing (existing_entries : gset text) (files : list text)
  : list text :=
  List.filter
    (fun f => negb (bool_decide (canonical f ∈ existing_entries))) files.

(** A line of a file without its line terminator. *)
Definition chomp (line : text) : text :=
  match last line with
  | Some c => if c =? LF then removelast line else line
  | None => line
  end.

(** A text with every LF written as CR LF, as an editor that uses that
    convention saves it. *)
Definition to_crlf (s : text) : text :=
  concat (List.map (fun c => if c =? LF then [CR; LF] else [c]) s).

(** ** Sample data: the files and index texts of the scenarios *)

(** A file name with a line feed in it. *)
Definition two_line_name : text := str "a" ++ [LF] ++ str "b.md".


Definition post1 : text := str "post1.md".
Definition post2 : text := str "post2.md".

(** The canonical entry of [post1.md] with a space before the line end. *)
Definition padded_index : text := canonical post1 ++ str " " ++ [LF].

(** A heading with no line end after it. *)
Definition unterminated_index : text := str "# Index".

(** The index of Scenario D. *)
Definition old_url_entry : text := str "- [post1.md](old-wrong-url)".
Definition old_url_index : text := old_url_entry ++ [LF].

(** The canonical entry of [post1.md] behind two spaces. *)
Definition indented_index : text := str "  " ++ canonical post1 ++ [LF].

Arguments str : simpl never.
Arguments canonical : simpl never.
Arguments written : simpl never.
Arguments content_of : simpl never.

(** Closed goals are settled by evaluation: an equation, a decidable
    proposition, or the negation of one. *)
Ltac eval_eq := vm_compute; reflexivity.
Ltac eval_true := apply (bool_decide_eq_true_1 _); vm_compute; reflexivity.
Ltac eval_false := apply (bool_decide_eq_false_1 _); vm_compute; reflexivity.

(** ** Text lemmas *)

Lemma startswith_app (p r : text) : startswith (p ++ r) p = true.
Proof.
  induction p as [|c p IH]; simpl; [reflexivity|].
  rewrite N.eqb_refl. exact IH.
Qed.

Lemma startswith_iff (p s : text) :
  startswith s p = true <-> exists r, s = p ++ r.
Proof.
  split; [|intros [r ->]; apply startswith_app].
  revert s. induction p as [|c p IH]; intros s H.
  - exists s. reflexivity.
  - destruct s as [|d s]; simpl in H; [discriminate|].
    apply andb_true_iff in H as [Hd Hs].
    apply N.eqb_eq in Hd. subst d.
    destruct (IH _ Hs) as [r ->]. exists r. reflexivity.
Qed.

(** The functions on the texts of the scenarios. *)
Example strip_example :
  strip (str "  - [a](b) " ++ [9; CR; LF]) = str "- [a](b)".
Proof. reflexivity. Qed.

Example endswith_example :
  endswith post1 (str ".md") = true
  /\ endswith (str "notes.txt") (str ".md") = false
  /\ endswith (str "md") (str ".md") = false.
Proof. repeat split. Qed.

Example file_lines_example :
  file_lines (str "ab" ++ [CR; LF] ++ str "cd" ++ [CR] ++ str "e"
                ++ [LF; LF] ++ str "x")
  = [str "ab" ++ [LF]; str "cd" ++ [LF]; str "e" ++ [LF]; [LF]; str "x"].
Proof. reflexivity. Qed.

Example md_files_example :
  md_files [post1; index_file; str "notes.txt"; post2] = [post1; post2].
Proof. eval_eq. Qed.

(** Scenario A: no index, two posts. *)
Example scenario_a :
  synchronize [post1; post2] None = Some (written post1 ++ written post2).
Proof. eval_eq. Qed.

(** Scenario B: the index has the entry of the first post. *)
Example scenario_b :
  synchronize [post1; post2] (Some (written post1))
  = Some (written post1 ++ written post2).
Proof. eval_eq. Qed.

Lemma lstrip_nonspace (c : N) (s : text) :
  isspace c = false -> lstrip (c :: s) = c :: s.
Proof. intros H. simpl. rewrite H. reflexivity. Qed.

Lemma rstrip_snoc_space (s : text) (c : N) :
  isspace c = true -> rstrip (s ++ [c]) = rstrip s.
Proof.
  intros H. unfold rstrip. rewrite rev_app_distr. simpl. rewrite H.
  reflexivity.
Qed.

Lemma rstrip_snoc_nonspace (s : text) (c : N) :
  isspace c = false -> rstrip (s ++ [c]) = s ++ [c].
Proof.
  intros H. unfold rstrip. rewrite rev_app_distr. simpl. rewrite H.
  change (c :: rev s) with (rev [c] ++ rev s).
  rewrite <- rev_app_distr. apply rev_involutive.
Qed.

(** A text that begins and ends with a character that is not whitespace
    is what [strip] returns for it followed by a line feed. *)
Lemma strip_line (c d : N) (m : text) :
  isspace c = false -> isspace d = false ->
  strip ((c :: m ++ [d]) ++ [LF]) = c :: m ++ [d].
Proof.
  intros Hc Hd. unfold strip.
  change ((c :: m ++ [d]) ++ [LF]) with (c :: ((m ++ [d]) ++ [LF])).
  rewrite (lstrip_nonspace c _ Hc).
  change (c :: (m ++ [d]) ++ [LF]) with ((c :: m ++ [d]) ++ [LF]).
  rewrite rstrip_snoc_space by reflexivity.
  change (c :: m ++ [d]) with ((c :: m) ++ [d]).
  apply rstrip_snoc_nonspace. exact Hd.
Qed.

Lemma canonical_shape (n : text) :
  exists m, canonical n = 45 :: m ++ [41].
Proof.
  exists (str " [" ++ n ++ str "](" ++ base_url ++ n).
  unfold canonical. change (str "- [") with (45 :: str " [").
  change (str ")") with [41]. simpl.
  rewrite <- !app_assoc. reflexivity.
Qed.

Lemma strip_written (n : text) : strip (written n) = canonical n.
Proof.
  unfold written. destruct (canonical_shape n) as [m ->].
  apply strip_line; reflexivity.
Qed.

Lemma startswith_canonical (n r : text) :
  startswith (canonical n ++ r) (str "- [") = true.
Proof.
  unfold canonical. rewrite <- app_assoc. apply startswith_app.
Qed.

(** ** The loop *)

Lemma append_to_index_written (n : text) (index : option text) :
  append_to_index n (base_url ++ n) index
  = Some (content_of index ++ written n).
Proof.
  unfold append_to_index, written, canonical, content_of.
  rewrite <- !app_assoc. reflexivity.
Qed.

Section Loop.

Variable E : gset text.

Lemma loop_body_present (index : option text) (n : text) :
  canonical n ∈ E -> loop_body E index n = index.
Proof.
  intros H. unfold loop_body. fold (canonical n).
  rewrite bool_decide_eq_true_2 by exact H. reflexivity.
Qed.

Lemma loop_body_absent (index : option text) (n : text) :
  canonical n ∉ E ->
  loop_body E index n = Some (content_of index ++ written n).
Proof.
  intros H. unfold loop_body. fold (canonical n).
  rewrite bool_decide_eq_false_2 by exact H. simpl.
  apply append_to_index_written.
Qed.

Lemma missing_cons (n : text) (files : list text) :
  missing E (n :: files)
  = if bool_decide (canonical n ∈ E) then missing E files
    else n :: missing E files.
Proof.
  unfold missing. cbn [List.filter].
  destruct (bool_decide (canonical n ∈ E)); reflexivity.
Qed.

Lemma elem_of_missing (files : list text) (n : text) :
  n ∈ missing E files <-> n ∈ files /\ canonical n ∉ E.
Proof.
  unfold missing. rewrite !list_elem_of_In, filter_In.
  rewrite negb_true_iff, bool_decide_eq_false. reflexivity.
Qed.

Lemma missing_nil (files : list text) :
  (forall n, n ∈ files -> canonical n ∈ E) -> missing E files = [].
Proof.
  intros H. induction files as [|n files IH]; [reflexivity|].
  rewrite missing_cons, bool_decide_eq_true_2.
  - apply IH. intros m Hm. apply H. right. exact Hm.
  - apply H. left.
Qed.

(** The loop appends, in order, what [append_to_index] writes for the
    candidates whose canonical entry is missing from the set read before
    the loop; it does not touch the file when there is none. *)
Lemma loop_spec (files : list text) (index : option text) :
  fold_left (loop_body E) files index
  = match missing E files with
    | [] => index
    | ns => Some (content_of index ++ concat (List.map written ns))
    end.
Proof.
  revert index. induction files as [|n files IH]; intros index.
  - reflexivity.
  - cbn [fold_left]. rewrite missing_cons, IH.
    destruct (decide (canonical n ∈ E)) as [Hin|Hout].
    + rewrite loop_body_present by exact Hin.
      rewrite bool_decide_eq_true_2 by exact Hin. reflexivity.
    + rewrite loop_body_absent by exact Hout.
      rewrite bool_decide_eq_false_2 by exact Hout.
      destruct (missing E files) as [|m ms].
      * cbn [List.map concat]. rewrite app_nil_r. reflexivity.
      * cbn [List.map concat content_of default from_option id].
        unfold content_of at 1. cbn [default from_option id].
        rewrite <- !app_assoc. reflexivity.
Qed.

End Loop.

Lemma synchronize_content (listing : list text) (index : option text) :
  content_of (synchronize listing index)
  = content_of index
    ++ concat (List.map written
                 (missing (read_existing_entries index) (md_files listing))).
Proof.
  unfold synchronize. rewrite loop_spec.
  destruct (missing _ _) as [|m ms].
  - simpl. rewrite app_nil_r. reflexivity.
  - reflexivity.
Qed.

Lemma synchronize_exists (listing : list text) (index : option text) :
  is_Some index -> is_Some (synchronize listing index).
Proof.
  intros H. unfold synchronize. rewrite loop_spec.
  destruct (missing _ _); [exact H | eexists; reflexivity].
Qed.

Lemma synchronize_nothing_missing (listing : list text) (index : option text) :
  missing (read_existing_entries index) (md_files listing) = [] ->
  synchronize listing index = index.
Proof.
  intros H. unfold synchronize. rewrite loop_spec, H. reflexivity.
Qed.

Lemma elem_of_md_files (listing : list text) (n : text) :
  n ∈ md_files listing
  <-> n ∈ listing /\ endswith n (str ".md") = true /\ n <> index_file.
Proof.
  unfold md_files. rewrite !list_elem_of_In, filter_In.
  rewrite andb_true_iff, negb_true_iff, bool_decide_eq_false. reflexivity.
Qed.

(** ** Lines *)

(** Induction along the cases of [universal_newlines]. *)
Lemma universal_newlines_ind (P : text -> Prop) :
  P [] ->
  P [CR] ->
  (forall r, P r -> P (CR :: LF :: r)) ->
  (forall c r, c <> LF -> P (c :: r) -> P (CR :: c :: r)) ->
  (forall c r, c <> CR -> P r -> P (c :: r)) ->
  forall s, P s.
Proof.
  intros Hnil Hcr Hcrlf Hcrc Hc s.
  remember (length s) as k eqn:Hk.
  revert s Hk. induction k as [k IH] using lt_wf_ind. intros s Hk.
  destruct s as [|c r]; [exact Hnil|].
  destruct (N.eq_dec c CR) as [->|Hne].
  - destruct r as [|c' r']; [exact Hcr|].
    destruct (N.eq_dec c' LF) as [->|Hne'].
    + apply Hcrlf. apply (IH (length r')); [simpl in Hk; lia | reflexivity].
    + apply Hcrc; [exact Hne'|].
      apply (IH (length (c' :: r'))); [simpl in *; lia | reflexivity].
  - apply Hc; [exact Hne|].
    apply (IH (length r)); [simpl in Hk; lia | reflexivity].
Qed.

Lemma universal_newlines_cr_lf (r : text) :
  universal_newlines (CR :: LF :: r) = LF :: universal_newlines r.
Proof. reflexivity. Qed.

Lemma universal_newlines_cr (c : N) (r : text) :
  c <> LF ->
  universal_newlines (CR :: c :: r) = LF :: universal_newlines (c :: r).
Proof.
  intros H. cbn [universal_newlines]. rewrite N.eqb_refl.
  apply N.eqb_neq in H. rewrite H. reflexivity.
Qed.

Lemma universal_newlines_other (c : N) (r : text) :
  c <> CR -> universal_newlines (c :: r) = c :: universal_newlines r.
Proof.
  intros H. cbn [universal_newlines].
  apply N.eqb_neq in H. rewrite H. reflexivity.
Qed.

(** Translation distributes over a concatenation unless it would join a
    CR at the end of the left part to an LF at the start of the right
    part. *)
Lemma universal_newlines_app (a b : text) :
  head b <> Some LF ->
  universal_newlines (a ++ b) = universal_newlines a ++ universal_newlines b.
Proof.
  intros Hb. induction a as [| |r IH|c r Hc IH|c r Hc IH]
    using universal_newlines_ind.
  - reflexivity.
  - destruct b as [|c b].
    + reflexivity.
    + assert (c <> LF) by (intros ->; apply Hb; reflexivity).
      change ([CR] ++ c :: b) with (CR :: c :: b).
      rewrite universal_newlines_cr by assumption. reflexivity.
  - change ((CR :: LF :: r) ++ b) with (CR :: LF :: (r ++ b)).
    rewrite !universal_newlines_cr_lf, IH. reflexivity.
  - change ((CR :: c :: r) ++ b) with (CR :: c :: (r ++ b)).
    rewrite !universal_newlines_cr by assumption.
    change (c :: r ++ b) with ((c :: r) ++ b). rewrite IH. reflexivity.
  - change ((c :: r) ++ b) with (c :: (r ++ b)).
    rewrite !universal_newlines_other by assumption.
    rewrite IH. reflexivity.
Qed.

(** A text without CR is read as it is. *)
Lemma universal_newlines_id (s : text) :
  Forall (fun c => c <> CR) s -> universal_newlines s = s.
Proof.
  induction 1 as [|c s Hc _ IH]; [reflexivity|].
  rewrite universal_newlines_other by exact Hc. f_equal. exact IH.
Qed.

Lemma no_linebreak_no_cr (s : text) :
  no_linebreak s = true -> Forall (fun c => c <> CR) s.
Proof.
  intros H. apply List.Forall_forall. intros c Hc.
  unfold no_linebreak in H. rewrite forallb_forall in H.
  specialize (H c Hc).
  apply negb_true_iff, orb_false_iff in H as [_ H].
  apply N.eqb_neq. exact H.
Qed.

Lemma universal_newlines_snoc_lf (s : text) :
  exists u, universal_newlines (s ++ [LF]) = u ++ [LF].
Proof.
  induction s as [| |r IH|c r Hc IH|c r Hc IH] using universal_newlines_ind.
  - exists []. reflexivity.
  - exists []. reflexivity.
  - destruct IH as [u Hu]. exists (LF :: u).
    change ((CR :: LF :: r) ++ [LF]) with (CR :: LF :: (r ++ [LF])).
    rewrite universal_newlines_cr_lf, Hu. reflexivity.
  - destruct IH as [u Hu]. exists (LF :: u).
    change ((CR :: c :: r) ++ [LF]) with (CR :: c :: (r ++ [LF])).
    rewrite universal_newlines_cr by assumption.
    change (c :: r ++ [LF]) with ((c :: r) ++ [LF]). rewrite Hu. reflexivity.
  - destruct IH as [u Hu]. exists (c :: u).
    change ((c :: r) ++ [LF]) with (c :: (r ++ [LF])).
    rewrite universal_newlines_other by assumption. rewrite Hu. reflexivity.
Qed.

(** A text that ends with a line break is read as one that ends with LF. *)
Lemma universal_newlines_terminated (s : text) :
  s <> [] -> terminated s = true ->
  exists u, universal_newlines s = u ++ [LF].
Proof.
  intros Hne Ht. destruct s as [|c s _] using rev_ind; [congruence|].
  unfold terminated in Ht. rewrite last_snoc in Ht.
  apply orb_true_iff in Ht as [H|H]; apply N.eqb_eq in H; subst c.
  - apply universal_newlines_snoc_lf.
  - exists (universal_newlines s).
    rewrite universal_newlines_app by discriminate. reflexivity.
Qed.

Lemma split_lines_nil (s : text) : split_lines s = [] -> s = [].
Proof.
  destruct s as [|c s]; [reflexivity|]. cbn [split_lines].
  destruct (c =? LF); [discriminate|].
  destruct (split_lines s); discriminate.
Qed.

(** Lines are split after every LF: what follows an LF does not change
    the lines before it. *)
Lemma split_lines_app (a b : text) :
  split_lines ((a ++ [LF]) ++ b) = split_lines (a ++ [LF]) ++ split_lines b.
Proof.
  induction a as [|c a IH].
  - reflexivity.
  - change (((c :: a) ++ [LF]) ++ b) with (c :: ((a ++ [LF]) ++ b)).
    change ((c :: a) ++ [LF]) with (c :: (a ++ [LF])).
    cbn [split_lines]. rewrite IH.
    destruct (c =? LF); [reflexivity|].
    destruct (split_lines (a ++ [LF])) as [|l ls] eqn:Hs.
    + apply split_lines_nil in Hs. destruct a; discriminate.
    + reflexivity.
Qed.

(** A text without LF, followed by LF, is one line. *)
Lemma split_lines_single (s : text) :
  no_linebreak s = true -> split_lines (s ++ [LF]) = [s ++ [LF]].
Proof.
  induction s as [|c s IH]; intros H; [reflexivity|].
  cbn [no_linebreak forallb] in H. apply andb_true_iff in H as [Hc Hs].
  apply negb_true_iff, orb_false_iff in Hc as [Hc _].
  change ((c :: s) ++ [LF]) with (c :: (s ++ [LF])).
  cbn [split_lines]. rewrite Hc, (IH Hs). reflexivity.
Qed.

(** Reading what was written after a terminated text: the lines of the
    text, then the lines of what was written. *)
Lemma file_lines_app (a b : text) :
  terminated a = true -> head b <> Some LF ->
  file_lines (a ++ b) = file_lines a ++ file_lines b.
Proof.
  intros Ht Hb. unfold file_lines.
  rewrite universal_newlines_app by exact Hb.
  destruct a as [|c a]; [reflexivity|].
  destruct (universal_newlines_terminated (c :: a)) as [u ->];
    [discriminate | exact Ht |].
  apply split_lines_app.
Qed.

(** ** What the script writes, read back *)

Lemma no_linebreak_app (a b : text) :
  no_linebreak (a ++ b) = no_linebreak a && no_linebreak b.
Proof. apply forallb_app. Qed.

Lemma no_linebreak_canonical (n : text) :
  no_linebreak n = true -> no_linebreak (canonical n) = true.
Proof.
  intros H. unfold canonical. rewrite !no_linebreak_app, H. reflexivity.
Qed.

Lemma file_lines_written (n : text) :
  no_linebreak n = true -> file_lines (written n) = [written n].
Proof.
  intros H. apply no_linebreak_canonical in H.
  unfold file_lines, written.
  rewrite universal_newlines_id.
  - apply split_lines_single. exact H.
  - apply Forall_app. split.
    + apply no_linebreak_no_cr. exact H.
    + constructor; [discriminate | constructor].
Qed.

Lemma head_written (n r : text) : head (written n ++ r) = Some 45.
Proof.
  unfold written. destruct (canonical_shape n) as [m ->]. reflexivity.
Qed.

Lemma head_appended (ns : list text) :
  head (concat (List.map written ns)) <> Some LF.
Proof.
  destruct ns as [|n ns]; [discriminate|].
  cbn [List.map concat]. rewrite head_written. discriminate.
Qed.

Lemma terminated_written (n : text) : terminated (written n) = true.
Proof.
  unfold terminated, written. rewrite last_snoc. reflexivity.
Qed.

Lemma file_lines_appended (ns : list text) :
  file_lines (concat (List.map written ns))
  = concat (List.map (fun n => file_lines (written n)) ns).
Proof.
  induction ns as [|n ns IH]; [reflexivity|].
  cbn [List.map concat].
  rewrite file_lines_app by (apply terminated_written || apply head_appended).
  rewrite IH. reflexivity.
Qed.

(** The lines of the index after a run that found it terminated. *)
Lemma file_lines_synchronize (a : text) (ns : list text) :
  terminated a = true ->
  file_lines (a ++ concat (List.map written ns))
  = file_lines a ++ concat (List.map (fun n => file_lines (written n)) ns).
Proof.
  intros Ht. rewrite file_lines_app by (exact Ht || apply head_appended).
  rewrite file_lines_appended. reflexivity.
Qed.

Lemma elem_of_read_existing_entries (content x : text) :
  x ∈ read_existing_entries (Some content)
  <-> exists line, line ∈ file_lines content
                   /\ startswith line (str "- [") = true
                   /\ strip line = x.
Proof.
  unfold read_existing_entries.
  rewrite elem_of_list_to_set, list_elem_of_In, in_map_iff.
  split.
  - intros (line & Hx & Hin). apply filter_In in Hin as [Hin Hs].
    exists line. rewrite list_elem_of_In. auto.
  - intros (line & Hin & Hs & Hx). exists line. split; [exact Hx|].
    apply filter_In. rewrite <- list_elem_of_In. auto.
Qed.

Lemma canonical_inj (a b : text) : canonical a = canonical b -> a = b.
Proof.
  intros H. assert (Hlen : length a = length b).
  { apply (f_equal (@length N)) in H. unfold canonical in H.
    rewrite !length_app in H. lia. }
  unfold canonical in H. apply app_inv_head in H.
  apply app_inj_1 in H as [H _]; assumption.
Qed.

(** ** The next run's scan *)

Lemma synchronize_some (listing : list text) (index : option text)
    (content' : text) :
  synchronize listing index = Some content' ->
  content' = content_of index
             ++ concat (List.map written
                  (missing (read_existing_entries index) (md_files listing))).
Proof.
  intros H. rewrite <- synchronize_content, H. reflexivity.
Qed.

Lemma missing_is_some (listing : list text) (index : option text) (n : text) :
  n ∈ missing (read_existing_entries index) (md_files listing) ->
  is_Some (synchronize listing index).
Proof.
  intros H. unfold synchronize. rewrite loop_spec.
  destruct (missing _ _); [inversion H | eexists; reflexivity].
Qed.

(** A line of the index before the run is a line of the index after it,
    when the run found the index terminated. *)
Lemma line_kept (listing : list text) (old line : text) :
  terminated old = true ->
  line ∈ file_lines old ->
  line ∈ file_lines (content_of (synchronize listing (Some old))).
Proof.
  intros Ht Hin. rewrite synchronize_content. unfold content_of at 1.
  cbn [default from_option id].
  rewrite file_lines_synchronize by exact Ht.
  apply elem_of_app. left. exact Hin.
Qed.

(** What the run wrote for a name without line breaks is a line of the
    index after it, when the run found the index terminated. *)
Lemma line_written (listing : list text) (index : option text) (n : text) :
  terminated (content_of index) = true ->
  no_linebreak n = true ->
  n ∈ missing (read_existing_entries index) (md_files listing) ->
  written n ∈ file_lines (content_of (synchronize listing index)).
Proof.
  intros Ht Hn Hin. rewrite synchronize_content.
  rewrite file_lines_synchronize by exact Ht.
  apply elem_of_app. right.
  rewrite list_elem_of_In, in_concat.
  exists (file_lines (written n)). split.
  - apply (in_map (fun m => file_lines (written m))).
    rewrite <- list_elem_of_In. exact Hin.
  - rewrite file_lines_written by exact Hn. left. reflexivity.
Qed.

Lemma entry_line_after_run (listing : list text) (index : option text)
    (n : text) :
  terminated (content_of index) = true ->
  n ∈ md_files listing ->
  no_linebreak n = true ->
  exists line,
    line ∈ file_lines (content_of (synchronize listing index))
    /\ startswith line (str "- [") = true
    /\ strip line = canonical n.
Proof.
  intros Ht Hcand Hn.
  destruct (decide (canonical n ∈ read_existing_entries index)) as [Hin|Hout].
  - destruct index as [old|]; [|inversion Hin].
    apply elem_of_read_existing_entries in Hin as (line & Hl & Hs & Hx).
    exists line. split; [|split; assumption].
    apply line_kept; assumption.
  - exists (written n). split; [|split].
    + apply line_written; [assumption..|].
      apply elem_of_missing. split; assumption.
    + apply startswith_canonical.
    + apply strip_written.
Qed.

(** Idempotence where the script does achieve it: the index is absent,
    empty or ends with a line break, and no candidate name holds one. *)
Lemma synchronize_idempotent_terminated (listing : list text)
    (index : option text) :
  terminated (content_of index) = true ->
  (forall n, n ∈ md_files listing -> no_linebreak n = true) ->
  synchronize listing (synchronize listing index)
  = synchronize listing index.
Proof.
  intros Ht Hn. apply synchronize_nothing_missing. apply missing_nil.
  intros n Hcand.
  destruct (entry_line_after_run listing index n Ht Hcand (Hn n Hcand))
    as (line & Hl & Hs & Hx).
  destruct (synchronize listing index) as [content'|]; [|inversion Hl].
  apply elem_of_read_existing_entries. exists line. auto.
Qed.

(** Under the same conditions the next scan finds what the last scan
    found, and the canonical entry of every candidate. *)
Lemma scan_after_run_kept (listing : list text) (old x : text) :
  terminated old = true ->
  x ∈ read_existing_entries (Some old) ->
  x ∈ read_existing_entries (synchronize listing (Some old)).
Proof.
  intros Ht Hx.
  apply elem_of_read_existing_entries in Hx as (line & Hl & Hs & Hx).
  apply (line_kept listing) in Hl; [|exact Ht].
  destruct (synchronize listing (Some old)) as [content'|]; [|inversion Hl].
  apply elem_of_read_existing_entries. exists line. auto.
Qed.

Lemma scan_after_run_canonical (listing : list text) (index : option text)
    (n : text) :
  terminated (content_of index) = true ->
  n ∈ md_files listing ->
  no_linebreak n = true ->
  canonical n ∈ read_existing_entries (synchronize listing index).
Proof.
  intros Ht Hcand Hn.
  destruct (entry_line_after_run listing index n Ht Hcand Hn)
    as (line & Hl & Hs & Hx).
  destruct (synchronize listing index) as [content'|]; [|inversion Hl].
  apply elem_of_read_existing_entries. exists line. auto.
Qed.

(** A candidate whose canonical entry the scan did not find has its
    entry line appended, after the index as it was. *)
Lemma missing_entry_appended (listing : list text) (index : option text)
    (n : text) :
  n ∈ md_files listing ->
  canonical n ∉ read_existing_entries index ->
  exists before after,
    synchronize listing index
    = Some (content_of index ++ concat (List.map written before)
              ++ written n ++ concat (List.map written after)).
Proof.
  intros Hcand Hout.
  assert (Hm : n ∈ missing (read_existing_entries index) (md_files listing))
    by (apply elem_of_missing; auto).
  destruct (missing_is_some _ _ _ Hm) as [content' Hc].
  rewrite Hc. apply synchronize_some in Hc. subst content'.
  apply list_elem_of_split in Hm as (before & after & ->).
  exists before, after.
  rewrite List.map_app, concat_app. reflexivity.
Qed.

Lemma filter_nil {A} (P : A -> bool) (l : list A) :
  (forall x, x ∈ l -> P x = false) -> List.filter P l = [].
Proof.
  intros H. induction l as [|x l IH]; [reflexivity|].
  cbn [List.filter]. rewrite (H x) by left.
  apply IH. intros y Hy. apply H. right. exact Hy.
Qed.

Lemma filter_filter {A} (P Q : A -> bool) (l : list A) :
  List.filter P (List.filter Q l) = List.filter (fun x => Q x && P x) l.
Proof.
  induction l as [|x l IH]; [reflexivity|].
  cbn [List.filter]. destruct (Q x); cbn [andb List.filter]; rewrite IH;
    reflexivity.
Qed.

Lemma filter_sublist {A} (P : A -> bool) (l : list A) :
  sublist (List.filter P l) l.
Proof.
  induction l as [|x l IH]; [constructor|].
  cbn [List.filter]. destruct (P x); constructor; exact IH.
Qed.

(** ** The round trip where it holds *)

(** After an index that is absent, empty or ends with a line break, what
    [append_to_index] writes for a name without line breaks is read back
    as one line that begins with the marker and strips to the canonical
    entry, so the next scan's set has the entry. *)
Lemma append_then_scan (index : option text) (n : text) :
  terminated (content_of index) = true ->
  no_linebreak n = true ->
  canonical n ∈ read_existing_entries (append_to_index n (base_url ++ n) index).
Proof.
  intros Ht Hn. rewrite append_to_index_written.
  apply elem_of_read_existing_entries. exists (written n).
  split; [|split].
  - rewrite file_lines_app; [|exact Ht|].
    + apply elem_of_app. right.
      rewrite file_lines_written by exact Hn. left.
    + rewrite <- (app_nil_r (written n)), head_written. discriminate.
  - apply startswith_canonical.
  - apply strip_written.
Qed.

(** A carriage return in a name is a line break for the reader: the
    entry written for such a name is read back in pieces, and the next
    run appends it again. *)
Lemma carriage_return_in_name :
  file_lines (written (str "a" ++ [CR] ++ str "b.md"))
  = [str "- [a" ++ [LF];
     str "b.md](" ++ base_url ++ str "a" ++ [LF];
     str "b.md)" ++ [LF]]
  /\ synchronize [str "a" ++ [CR] ++ str "b.md"]
       (synchronize [str "a" ++ [CR] ++ str "b.md"] None)
     <> synchronize [str "a" ++ [CR] ++ str "b.md"] None.
Proof.
  split; [eval_eq | eval_false].
Qed.

(** ** More on [strip] *)

Lemma rstrip_idem (s : text) : rstrip (rstrip s) = rstrip s.
Proof.
  induction s as [|d s IH] using rev_ind; [reflexivity|].
  destruct (isspace d) eqn:Hd.
  - rewrite rstrip_snoc_space by exact Hd. exact IH.
  - rewrite !rstrip_snoc_nonspace by exact Hd. reflexivity.
Qed.

(** What [rstrip] removes is whitespace at the end. *)
Lemma rstrip_spec (s : text) :
  exists ws, s = rstrip s ++ ws /\ forallb isspace ws = true.
Proof.
  induction s as [|d s IH] using rev_ind.
  - exists []. split; reflexivity.
  - destruct (isspace d) eqn:Hd.
    + destruct IH as (ws & Hs & Hws). exists (ws ++ [d]).
      rewrite rstrip_snoc_space by exact Hd. split.
      * rewrite app_assoc, <- Hs. reflexivity.
      * rewrite forallb_app, Hws. cbn. rewrite Hd. reflexivity.
    + exists []. rewrite rstrip_snoc_nonspace by exact Hd.
      rewrite app_nil_r. split; reflexivity.
Qed.

Lemma rstrip_app_spaces (s ws : text) :
  forallb isspace ws = true -> rstrip (s ++ ws) = rstrip s.
Proof.
  induction ws as [|d ws IH] using rev_ind; intros H.
  - rewrite app_nil_r. reflexivity.
  - rewrite forallb_app in H. apply andb_true_iff in H as [Hws Hd].
    cbn in Hd. rewrite andb_true_r in Hd.
    rewrite app_assoc, rstrip_snoc_space by exact Hd. apply IH. exact Hws.
Qed.

(** [rstrip] leaves alone everything up to a character that is not
    whitespace. *)
Lemma rstrip_app_nonspace (p r : text) (c : N) :
  isspace c = false -> rstrip ((p ++ [c]) ++ r) = (p ++ [c]) ++ rstrip r.
Proof.
  intros Hc. induction r as [|d r IH] using rev_ind.
  - rewrite !app_nil_r. apply rstrip_snoc_nonspace. exact Hc.
  - destruct (isspace d) eqn:Hd.
    + rewrite app_assoc, !rstrip_snoc_space by exact Hd. exact IH.
    + rewrite app_assoc, !rstrip_snoc_nonspace by exact Hd.
      rewrite <- app_assoc. reflexivity.
Qed.

(** A line that begins with the marker: [strip] removes whitespace at its
    end only, and the marker stays. *)
Lemma strip_marker_line (r : text) :
  strip (str "- [" ++ r) = str "- [" ++ rstrip r.
Proof.
  unfold strip. change (str "- [" ++ r) with (45 :: (32 :: 91 :: r)).
  rewrite lstrip_nonspace by reflexivity.
  change (45 :: 32 :: 91 :: r) with (([45; 32] ++ [91]) ++ r).
  rewrite rstrip_app_nonspace by reflexivity. reflexivity.
Qed.

Lemma strip_marker_line_idem (r : text) :
  strip (strip (str "- [" ++ r)) = strip (str "- [" ++ r).
Proof.
  rewrite !strip_marker_line, rstrip_idem. reflexivity.
Qed.

Lemma no_linebreak_rstrip (s : text) :
  no_linebreak s = true -> no_linebreak (rstrip s) = true.
Proof.
  intros H. destruct (rstrip_spec s) as (ws & Hs & _).
  rewrite Hs, no_linebreak_app in H. apply andb_true_iff in H as [H _].
  exact H.
Qed.

(** ** The shape of the lines read *)

Lemma universal_newlines_no_cr (s : text) :
  Forall (fun c => c <> CR) (universal_newlines s).
Proof.
  induction s as [| |r IH|c r Hc IH|c r Hc IH] using universal_newlines_ind.
  - constructor.
  - constructor; [discriminate | constructor].
  - rewrite universal_newlines_cr_lf. constructor; [discriminate | exact IH].
  - rewrite universal_newlines_cr by exact Hc.
    constructor; [discriminate | exact IH].
  - rewrite universal_newlines_other by exact Hc.
    constructor; [exact Hc | exact IH].
Qed.

Lemma universal_newlines_idem (s : text) :
  universal_newlines (universal_newlines s) = universal_newlines s.
Proof. apply universal_newlines_id, universal_newlines_no_cr. Qed.

(** A line is a text without line break, followed or not by one LF. *)
Lemma split_lines_shape (s line : text) :
  Forall (fun c => c <> CR) s ->
  line ∈ split_lines s ->
  exists body, no_linebreak body = true
               /\ (line = body ++ [LF] \/ line = body).
Proof.
  intros Hs. revert line. induction Hs as [|c r Hc _ IH]; intros line Hin.
  - inversion Hin.
  - cbn [split_lines] in Hin. destruct (c =? LF) eqn:Hlf.
    + apply elem_of_cons in Hin as [->|Hin]; [|apply IH; exact Hin].
      exists []. split; [reflexivity | left; reflexivity].
    + assert (Hnl : negb ((c =? LF) || (c =? CR)) = true).
      { apply N.eqb_neq in Hc. rewrite Hlf, Hc. reflexivity. }
      destruct (split_lines r) as [|l ls].
      * apply list_elem_of_singleton in Hin. subst line.
        exists [c]. split; [|right; reflexivity].
        cbn [no_linebreak forallb]. rewrite Hnl. reflexivity.
      * apply elem_of_cons in Hin as [->|Hin].
        -- destruct (IH l) as (body & Hb & Hl); [left|].
           exists (c :: body). split.
           ++ cbn [no_linebreak forallb]. rewrite Hnl. exact Hb.
           ++ destruct Hl as [->| ->]; [left | right]; reflexivity.
        -- apply IH. right. exact Hin.
Qed.

Lemma file_lines_shape (content line : text) :
  line ∈ file_lines content ->
  exists body, no_linebreak body = true
               /\ (line = body ++ [LF] \/ line = body).
Proof.
  apply split_lines_shape, universal_newlines_no_cr.
Qed.

(** ** The existing-entry set as a set of lines *)

Lemma elem_of_scan (index : option text) (x : text) :
  x ∈ read_existing_entries index
  <-> exists line, line ∈ file_lines (content_of index)
                   /\ startswith line (str "- [") = true
                   /\ strip line = x.
Proof.
  destruct index as [content|].
  - apply elem_of_read_existing_entries.
  - split; [intros H; inversion H | intros (line & H & _); inversion H].
Qed.

Lemma scan_written (n : text) :
  no_linebreak n = true ->
  read_existing_entries (Some (written n)) = {[canonical n]}.
Proof.
  intros Hn. apply set_eq. intros x.
  rewrite elem_of_read_existing_entries, elem_of_singleton.
  rewrite file_lines_written by exact Hn. split.
  - intros (line & Hl & _ & Hx).
    apply list_elem_of_singleton in Hl. subst line.
    rewrite strip_written in Hx. congruence.
  - intros ->. exists (written n). split; [left|]. split.
    + apply startswith_canonical.
    + apply strip_written.
Qed.

(** What the scan finds after a run that found the index terminated:
    what it found before, and what it finds in each line the run wrote. *)
Lemma elem_of_scan_after_run (listing : list text) (index : option text)
    (x : text) :
  terminated (content_of index) = true ->
  x ∈ read_existing_entries (synchronize listing index)
  <-> x ∈ read_existing_entries index
      \/ exists n,
           n ∈ missing (read_existing_entries index) (md_files listing)
           /\ x ∈ read_existing_entries (Some (written n)).
Proof.
  intros Ht. rewrite (elem_of_scan (synchronize listing index)).
  rewrite synchronize_content, file_lines_synchronize by exact Ht.
  rewrite (elem_of_scan index). split.
  - intros (line & Hl & Hs & Hx). apply elem_of_app in Hl as [Hl|Hl].
    + left. exists line. auto.
    + right. apply list_elem_of_In, in_concat in Hl as (ls & Hls & Hl).
      apply in_map_iff in Hls as (n & <- & Hn).
      exists n. split; [apply list_elem_of_In; exact Hn|].
      apply elem_of_read_existing_entries. exists line.
      rewrite list_elem_of_In. auto.
  - intros [(line & Hl & Hs & Hx)|(n & Hn & Hx)].
    + exists line. split; [apply elem_of_app; left; exact Hl | auto].
    + apply elem_of_read_existing_entries in Hx as (line & Hl & Hs & Hx).
      exists line. split; [|auto]. apply elem_of_app. right.
      rewrite list_elem_of_In, in_concat.
      exists (file_lines (written n)). split.
      * apply (in_map (fun m => file_lines (written m))).
        apply list_elem_of_In. exact Hn.
      * apply list_elem_of_In. exact Hl.
Qed.

Lemma terminated_appended (a : text) (ns : list text) :
  ns <> [] -> terminated (a ++ concat (List.map written ns)) = true.
Proof.
  intros Hne. destruct ns as [|n ns _] using rev_ind; [congruence|].
  rewrite List.map_app, concat_app. cbn [List.map concat].
  rewrite app_nil_r. unfold written at 2.
  rewrite !app_assoc. unfold terminated. rewrite last_snoc. reflexivity.
Qed.

Lemma scan_no_linebreak (index : option text) (x : text) :
  x ∈ read_existing_entries index -> no_linebreak x = true.
Proof.
  intros Hx. apply elem_of_scan in Hx as (line & Hl & Hs & <-).
  apply startswith_iff in Hs as [r ->].
  apply file_lines_shape in Hl as (body & Hb & Hl).
  unfold strip. change (str "- [" ++ r) with (45 :: (32 :: 91 :: r)) in *.
  rewrite lstrip_nonspace by reflexivity.
  destruct Hl as [-> | ->].
  - rewrite rstrip_snoc_space by reflexivity.
    apply no_linebreak_rstrip. exact Hb.
  - apply no_linebreak_rstrip. exact Hb.
Qed.

Lemma strip_canonical_spaces (n ws : text) :
  forallb isspace ws = true -> strip (canonical n ++ ws) = canonical n.
Proof.
  intros Hws. unfold strip. destruct (canonical_shape n) as [m ->].
  change ((45 :: m ++ [41]) ++ ws) with (45 :: ((m ++ [41]) ++ ws)).
  rewrite lstrip_nonspace by reflexivity.
  change (45 :: (m ++ [41]) ++ ws) with ((45 :: m ++ [41]) ++ ws).
  rewrite rstrip_app_spaces by exact Hws.
  change (45 :: m ++ [41]) with ((45 :: m) ++ [41]).
  apply rstrip_snoc_nonspace. reflexivity.
Qed.

Lemma missing_empty (files : list text) : missing ∅ files = files.
Proof.
  induction files as [|n files IH]; [reflexivity|].
  rewrite missing_cons, bool_decide_eq_false_2, IH by apply not_elem_of_empty.
  reflexivity.
Qed.

Lemma universal_newlines_to_crlf (s : text) :
  Forall (fun c => c <> CR) s -> universal_newlines (to_crlf s) = s.
Proof.
  induction 1 as [|c s Hc _ IH]; [reflexivity|].
  unfold to_crlf in *. cbn [List.map concat].
  destruct (c =? LF) eqn:Hlf.
  - apply N.eqb_eq in Hlf. subst c.
    change ([CR; LF] ++ ?x) with (CR :: LF :: x).
    rewrite universal_newlines_cr_lf, IH. reflexivity.
  - change ([c] ++ ?x) with (c :: x).
    rewrite universal_newlines_other by exact Hc. rewrite IH. reflexivity.
Qed.

(** The canonical entry of a candidate is in the next scan's set exactly
    when the name was a candidate of the run or the entry was in the set
    before. *)
Lemma canonical_scanned_after_run_iff (listing : list text)
    (index : option text) (n : text) :
  terminated (content_of index) = true ->
  (forall m, m ∈ md_files listing -> no_linebreak m = true) ->
  canonical n ∈ read_existing_entries (synchronize listing index)
  <-> n ∈ md_files listing \/ canonical n ∈ read_existing_entries index.
Proof.
  intros Ht Hnl. split.
  - intros H. apply elem_of_scan_after_run in H; [|exact Ht].
    destruct H as [H|(m & Hm & H)]; [right; exact H|].
    apply elem_of_missing in Hm as [Hm _].
    rewrite scan_written in H by (apply Hnl; exact Hm).
    apply elem_of_singleton, canonical_inj in H. subst m. left. exact Hm.
  - intros [H|H].
    + apply scan_after_run_canonical; auto.
    + apply elem_of_scan_after_run; [exact Ht | left; exact H].
Qed.

(** ** [append_to_index] with any name and link *)

Section AnyEntry.

Variables file_name link : text.

Let entry : text := str "- [" ++ file_name ++ str "](" ++ link ++ str ")".

Lemma entry_shape : exists m, entry = 45 :: m ++ [41].
Proof.
  exists (str " [" ++ file_name ++ str "](" ++ link).
  unfold entry. change (str "- [") with (45 :: str " [").
  change (str ")") with [41]. simpl.
  rewrite <- !app_assoc. reflexivity.
Qed.

Lemma append_to_index_entry (index : option text) :
  append_to_index file_name link index
  = Some (content_of index ++ entry ++ [LF]).
Proof.
  unfold append_to_index, entry, content_of.
  rewrite <- !app_assoc. reflexivity.
Qed.

Hypothesis Hname : no_linebreak file_name = true.
Hypothesis Hlink : no_linebreak link = true.

Lemma no_linebreak_entry : no_linebreak entry = true.
Proof.
  unfold entry. rewrite !no_linebreak_app, Hname, Hlink. reflexivity.
Qed.

Lemma file_lines_entry : file_lines (entry ++ [LF]) = [entry ++ [LF]].
Proof.
  unfold file_lines. rewrite universal_newlines_id.
  - apply split_lines_single, no_linebreak_entry.
  - apply Forall_app. split.
    + apply no_linebreak_no_cr, no_linebreak_entry.
    + constructor; [discriminate | constructor].
Qed.

Lemma strip_entry : strip (entry ++ [LF]) = entry.
Proof.
  destruct entry_shape as [m ->]. apply strip_line; reflexivity.
Qed.

Lemma file_lines_append_to_index (index : option text) :
  terminated (content_of index) = true ->
  file_lines (content_of (append_to_index file_name link index))
  = file_lines (content_of index) ++ [entry ++ [LF]].
Proof.
  intros Ht. rewrite append_to_index_entry.
  unfold content_of at 1. cbn [default from_option id].
  rewrite file_lines_app, file_lines_entry; [reflexivity | exact Ht |].
  destruct entry_shape as [m ->]. discriminate.
Qed.

End AnyEntry.

(** ** Small facts used below *)

Lemma chomp_snoc_lf (s : text) : chomp (s ++ [LF]) = s.
Proof.
  unfold chomp. rewrite last_snoc. cbn [N.eqb LF Pos.eqb].
  apply removelast_last.
Qed.

(** A canonical entry in the existing-entry set comes from a line that
    is the entry followed by whitespace only. *)
Lemma canonical_line_of_scan (index : option text) (n : text) :
  canonical n ∈ read_existing_entries index ->
  exists line ws,
    line ∈ file_lines (content_of index)
    /\ forallb isspace ws = true
    /\ line = canonical n ++ ws.
Proof.
  intros H. apply elem_of_scan in H as (line & Hin & Hs & Hx).
  apply startswith_iff in Hs as [r ->].
  destruct (rstrip_spec (str "- [" ++ r)) as (ws & Hline & Hws).
  exists (str "- [" ++ r), ws. split; [exact Hin|]. split; [exact Hws|].
  rewrite <- Hx. unfold strip.
  change (str "- [" ++ r) with (45 :: (32 :: 91 :: r)) in *.
  rewrite lstrip_nonspace by reflexivity. exact Hline.
Qed.

Lemma last_appended (a : text) (ns : list text) :
  ns <> [] -> last (a ++ concat (List.map written ns)) = Some LF.
Proof.
  intros Hne. destruct ns as [|n ns _] using rev_ind; [congruence|].
  rewrite List.map_app, concat_app. cbn [List.map concat].
  rewrite app_nil_r. unfold written at 2.
  rewrite !app_assoc. apply last_snoc.
Qed.

(** ** Properties of the synchronize operation *)

(** C1 as stated fails: with [post1.md] in the directory and an index
    whose only line is the canonical entry of [post1.md] followed by a
    space, the scan strips the line to the canonical entry, nothing is
    appended, and no line of the index after the run is exactly the
    canonical entry. *)
Lemma completeness_exact_line_counterexample :
  post1 ∈ [post1] /\ endswith post1 (str ".md") = true
  /\ post1 <> index_file
  /\ synchronize [post1] (Some padded_index) = Some padded_index
  /\ ~ exists line,
        line ∈ file_lines (content_of (synchronize [post1] (Some padded_index)))
        /\ chomp line = canonical post1.
Proof.
  split; [left|]. split; [reflexivity|]. split; [eval_false|].
  split; [eval_eq|].
  intros (line & Hin & Hc).
  replace (file_lines (content_of (synchronize [post1] (Some padded_index))))
    with [padded_index] in Hin by eval_eq.
  apply list_elem_of_singleton in Hin. subst line.
  revert Hc. eval_false.
Qed.

(** C1, amended: for every candidate file whose name holds no line break
    (LF or CR), when the index before the run is absent, empty or ends
    with a line break, the index after the run exists and has a line for
    the candidate.  When the scan before the loop found the canonical
    entry, it is a line the index already had, which begins with the
    marker and is the canonical entry once the whitespace around it is
    stripped; otherwise it is the line the run appended, which is exactly
    the canonical entry followed by its line feed. *)
Theorem completeness_up_to_strip (listing : list text) (index : option text)
    (n : text) :
  n ∈ listing -> endswith n (str ".md") = true -> n <> index_file ->
  no_linebreak n = true ->
  terminated (content_of index) = true ->
  exists content' line,
    synchronize listing index = Some content'
    /\ line ∈ file_lines content'
    /\ startswith line (str "- [") = true
    /\ strip line = canonical n
    /\ ((canonical n ∈ read_existing_entries index
         /\ line ∈ file_lines (content_of index))
        \/ ((canonical n ∉ read_existing_entries index)
            /\ line = canonical n ++ [LF]
            /\ chomp line = canonical n)).
Proof.
  intros Hin Hmd Hne Hn Ht.
  assert (Hcand : n ∈ md_files listing) by (apply elem_of_md_files; auto).
  destruct (decide (canonical n ∈ read_existing_entries index)) as [Hold|Hnew].
  - destruct index as [old|]; [|inversion Hold].
    pose proof Hold as Hscan.
    apply elem_of_read_existing_entries in Hscan as (line & Hl & Hs & Hx).
    pose proof (line_kept listing old line Ht Hl) as Hkept.
    destruct (synchronize listing (Some old)) as [content'|];
      [|inversion Hkept].
    exists content', line. repeat split; try assumption.
    left. split; assumption.
  - assert (Hm : n ∈ missing (read_existing_entries index) (md_files listing))
      by (apply elem_of_missing; auto).
    pose proof (line_written listing index n Ht Hn Hm) as Hw.
    destruct (synchronize listing index) as [content'|]; [|inversion Hw].
    exists content', (written n). split; [reflexivity|].
    split; [exact Hw|]. split; [apply startswith_canonical|].
    split; [apply strip_written|].
    right. split; [exact Hnew|]. split; [reflexivity|].
    apply chomp_snoc_lf.
Qed.

Lemma completeness_up_to_strip_witness :
  exists content' line,
    synchronize [post1; post2] (Some padded_index) = Some content'
    /\ line ∈ file_lines content'
    /\ startswith line (str "- [") = true
    /\ strip line = canonical post2
    /\ ((canonical post2 ∈ read_existing_entries (Some padded_index)
         /\ line ∈ file_lines (content_of (Some padded_index)))
        \/ ((canonical post2 ∉ read_existing_entries (Some padded_index))
            /\ line = canonical post2 ++ [LF]
            /\ chomp line = canonical post2)).
Proof.
  apply (completeness_up_to_strip [post1; post2] (Some padded_index) post2).
  - right. left.
  - reflexivity.
  - eval_false.
  - reflexivity.
  - reflexivity.
Defined.

(** C2 at a failing input: [post1.md] is in the directory and the index
    is a heading with no line end after it.  The first run writes the
    entry onto the heading's line, so the second run's scan does not find
    it and appends the entry again: two runs do not give what one run
    gives. *)
Theorem idempotence_fails_unterminated :
  synchronize [post1] (Some unterminated_index)
  = Some (unterminated_index ++ written post1)
  /\ synchronize [post1] (synchronize [post1] (Some unterminated_index))
     = Some (unterminated_index ++ written post1 ++ written post1)
  /\ synchronize [post1] (synchronize [post1] (Some unterminated_index))
     <> synchronize [post1] (Some unterminated_index).
Proof.
  split; [eval_eq|]. split; [eval_eq|]. eval_false.
Qed.

(** C3 at a failing input: [post1.md] is in the directory and the index
    is a heading with no line end after it.  The bytes of the old index
    are kept, but its line is not: the run writes the entry onto the
    heading's line, so after the run the heading is no longer a line of
    the index and the entry written is not a line of its own. *)
Theorem append_joins_unterminated_line :
  file_lines unterminated_index = [unterminated_index]
  /\ synchronize [post1] (Some unterminated_index)
     = Some (unterminated_index ++ written post1)
  /\ file_lines (content_of (synchronize [post1] (Some unterminated_index)))
     = [unterminated_index ++ written post1]
  /\ (unterminated_index
        ∉ file_lines
            (content_of (synchronize [post1] (Some unterminated_index))))
  /\ (written post1
        ∉ file_lines
            (content_of (synchronize [post1] (Some unterminated_index)))).
Proof.
  split; [eval_eq|]. split; [eval_eq|]. split; [eval_eq|].
  split; eval_false.
Qed.

(** C4 as stated fails: [existing_entries] is read once before the loop
    and never updated, so a listing that names [post1.md] twice gets its
    entry appended twice in one run. *)
Lemma within_run_dedup_counterexample :
  synchronize [post1; post1] None = Some (written post1 ++ written post1)
  /\ file_lines (written post1 ++ written post1)
     = [written post1; written post1].
Proof.
  split; eval_eq.
Qed.

(** C4, amended: a run appends the canonical entry line once for every
    occurrence, in the listing, of a candidate whose canonical entry is
    not in the set read before the loop; so for a listing without a
    repeated name (as a directory listing is) every line it appends is
    appended once. *)
Theorem appended_once_per_occurrence (listing : list text)
    (index : option text) :
  content_of (synchronize listing index)
  = content_of index
    ++ concat (List.map written
         (missing (read_existing_entries index) (md_files listing)))
  /\ (NoDup listing ->
      NoDup (List.map written
               (missing (read_existing_entries index) (md_files listing)))).
Proof.
  split; [apply synchronize_content|].
  intros Hnd. apply NoDup_fmap_2.
  - intros a b H. apply canonical_inj. unfold written in H.
    apply app_inv_tail in H. exact H.
  - unfold missing, md_files.
    apply NoDup_ListNoDup, List.NoDup_filter, List.NoDup_filter.
    apply NoDup_ListNoDup. exact Hnd.
Qed.

Lemma appended_once_per_occurrence_witness :
  NoDup [post1; post2]
  /\ content_of (synchronize [post1; post2] None)
     = written post1 ++ written post2
  /\ NoDup (List.map written
              (missing (read_existing_entries None)
                 (md_files [post1; post2]))).
Proof.
  assert (Hnd : NoDup [post1; post2]).
  { apply NoDup_cons. split.
    - intros H. apply list_elem_of_singleton in H. revert H. eval_false.
    - apply NoDup_singleton. }
  destruct (appended_once_per_occurrence [post1; post2] None) as [Hc Hn].
  split; [exact Hnd|]. split.
  - rewrite Hc. eval_eq.
  - exact (Hn Hnd).
Defined.

(** C5 as stated fails: the only line of the index that names
    [post1.md] is its canonical entry followed by a space, so it is not
    character for character the canonical entry; yet the scan strips it
    to the canonical entry, the run appends nothing, and the index still
    has one entry line for the name. *)
Lemma differing_line_counterexample :
  post1 ∈ [post1] /\ endswith post1 (str ".md") = true
  /\ post1 <> index_file
  /\ file_lines padded_index = [padded_index]
  /\ chomp padded_index <> canonical post1
  /\ synchronize [post1] (Some padded_index) = Some padded_index.
Proof.
  split; [left|]. split; [reflexivity|]. split; [eval_false|].
  split; [eval_eq|]. split; [eval_false | eval_eq].
Qed.

(** C5, amended: for every candidate whose name holds no line break, when
    the index ends with a line break, has the line [- [name](url)] with
    a URL other than the canonical one, and has no line that is the
    canonical entry followed by whitespace only, the run appends the
    canonical entry line after the index as it was, and the index ends
    up with two different entry lines for the name: the old one and the
    canonical entry followed by its line feed. *)
Theorem differing_url_entry_appended (listing : list text)
    (content n url : text) :
  n ∈ listing -> endswith n (str ".md") = true -> n <> index_file ->
  no_linebreak n = true ->
  terminated content = true ->
  url <> base_url ++ n ->
  (str "- [" ++ n ++ str "](" ++ url ++ str ")") ++ [LF]
    ∈ file_lines content ->
  (forall line ws, line ∈ file_lines content ->
                   forallb isspace ws = true ->
                   line <> canonical n ++ ws) ->
  exists before after content',
    synchronize listing (Some content) = Some content'
    /\ content' = content ++ concat (List.map written before)
                   ++ written n ++ concat (List.map written after)
    /\ (str "- [" ++ n ++ str "](" ++ url ++ str ")") ++ [LF]
         ∈ file_lines content'
    /\ canonical n ++ [LF] ∈ file_lines content'
    /\ (str "- [" ++ n ++ str "](" ++ url ++ str ")") ++ [LF]
       <> canonical n ++ [LF].
Proof.
  intros Hin Hmd Hne Hn Ht Hurl Hold Hnone.
  assert (Hcand : n ∈ md_files listing) by (apply elem_of_md_files; auto).
  assert (Hout : canonical n ∉ read_existing_entries (Some content)).
  { intros H. apply canonical_line_of_scan in H as (line & ws & Hl & Hws & ->).
    exact (Hnone _ ws Hl Hws eq_refl). }
  assert (Hm : n ∈ missing (read_existing_entries (Some content))
                     (md_files listing))
    by (apply elem_of_missing; auto).
  destruct (missing_entry_appended listing (Some content) n Hcand Hout)
    as (before & after & Hrun).
  pose proof (line_kept listing content _ Ht Hold) as Hkept.
  pose proof (line_written listing (Some content) n Ht Hn Hm) as Hw.
  rewrite Hrun in Hkept, Hw.
  eexists before, after, _. split; [exact Hrun|]. split; [reflexivity|].
  split; [exact Hkept|]. split; [exact Hw|].
  intros Heq. apply Hurl.
  apply app_inv_tail in Heq. unfold canonical in Heq.
  do 3 apply app_inv_head in Heq. apply app_inv_tail in Heq. exact Heq.
Qed.

(** Scenario D. *)
Lemma differing_url_entry_appended_witness :
  synchronize [post1] (Some old_url_index)
  = Some (old_url_index ++ written post1)
  /\ old_url_index ∈ file_lines (old_url_index ++ written post1)
  /\ canonical post1 ++ [LF] ∈ file_lines (old_url_index ++ written post1).
Proof.
  destruct (differing_url_entry_appended [post1] old_url_index post1
              (str "old-wrong-url"))
    as (before & after & content' & Hrun & _ & Hold & Hnew & _).
  - left.
  - reflexivity.
  - eval_false.
  - reflexivity.
  - reflexivity.
  - eval_false.
  - eval_true.
  - intros line ws Hl _ Heq.
    replace (file_lines old_url_index) with [old_url_index] in Hl by eval_eq.
    apply list_elem_of_singleton in Hl. subst line.
    apply (f_equal (fun s => nth 13%nat s 0)) in Heq.
    rewrite app_nth1 in Heq by (vm_compute; lia).
    vm_compute in Heq. discriminate.
  - assert (Hc : content' = old_url_index ++ written post1).
    { assert (H : synchronize [post1] (Some old_url_index)
                  = Some (old_url_index ++ written post1)) by eval_eq.
      congruence. }
    subst content'. split; [exact Hrun|]. split; [exact Hold | exact Hnew].
Defined.

(** C6: a text that only lines without the marker at their start strip
    to is not in the existing-entry set; when that text is the canonical
    entry of a candidate, the run appends the entry. *)
Theorem malformed_line_cannot_suppress (content x : text) :
  (forall line, line ∈ file_lines content -> strip line = x ->
                startswith line (str "- [") = false) ->
  (x ∉ read_existing_entries (Some content))
  /\ forall listing n,
       x = canonical n ->
       n ∈ listing -> endswith n (str ".md") = true -> n <> index_file ->
       exists before after,
         synchronize listing (Some content)
         = Some (content ++ concat (List.map written before)
                   ++ written n ++ concat (List.map written after)).
Proof.
  intros Hmal.
  assert (Hout : x ∉ read_existing_entries (Some content)).
  { intros Hx.
    apply elem_of_read_existing_entries in Hx as (line & Hl & Hs & Hx).
    rewrite (Hmal line Hl Hx) in Hs. discriminate. }
  split; [exact Hout|].
  intros listing n -> Hin Hmd Hne.
  apply (missing_entry_appended listing (Some content) n); [|exact Hout].
  apply elem_of_md_files. auto.
Qed.

Lemma malformed_line_cannot_suppress_witness :
  strip indented_index = canonical post1
  /\ (canonical post1 ∉ read_existing_entries (Some indented_index))
  /\ synchronize [post1] (Some indented_index)
     = Some (indented_index ++ written post1).
Proof.
  destruct (malformed_line_cannot_suppress indented_index (canonical post1))
    as [Hout Happ].
  - intros line Hl _.
    replace (file_lines indented_index) with [indented_index] in Hl
      by eval_eq.
    apply list_elem_of_singleton in Hl. subst line. reflexivity.
  - split; [eval_eq|]. split; [exact Hout|].
    destruct (Happ [post1] post1) as (before & after & _).
    + reflexivity.
    + left.
    + reflexivity.
    + eval_false.
    + eval_eq.
Defined.

(** C7: the name of the index file is never a candidate, whatever the
    listing, and no run writes the entry line of the index file. *)
Theorem index_file_never_candidate (listing : list text)
    (index : option text) :
  (index_file ∉ md_files listing)
  /\ exists names,
       content_of (synchronize listing index)
       = content_of index ++ concat (List.map written names)
       /\ written index_file ∉ List.map written names.
Proof.
  assert (Hnot : index_file ∉ md_files listing).
  { intros H. apply elem_of_md_files in H as (_ & _ & H). congruence. }
  split; [exact Hnot|].
  exists (missing (read_existing_entries index) (md_files listing)).
  split; [apply synchronize_content|].
  intros H. apply list_elem_of_In, in_map_iff in H as (n & Hw & Hn).
  unfold written in Hw. apply app_inv_tail, canonical_inj in Hw. subst n.
  apply list_elem_of_In, elem_of_missing in Hn as [Hn _].
  exact (Hnot Hn).
Qed.

(** C8: when no name of the listing ends with [.md], except perhaps the
    name of the index file, a run leaves the index as it is: the same
    text when it exists, still absent when it does not. *)
Theorem no_candidate_no_change (listing : list text) (index : option text) :
  (forall f, f ∈ listing -> endswith f (str ".md") = true -> f = index_file) ->
  synchronize listing index = index.
Proof.
  intros H. unfold synchronize.
  replace (md_files listing) with (@nil text); [reflexivity|].
  symmetry. apply filter_nil. intros f Hf.
  destruct (endswith f (str ".md")) eqn:Hmd; [|reflexivity].
  rewrite (bool_decide_eq_true_2 _ (H f Hf Hmd)). reflexivity.
Qed.

(** Scenario C, with the index absent. *)
Lemma no_candidate_no_change_witness :
  synchronize [index_file; str "notes.txt"] None = None.
Proof.
  apply (no_candidate_no_change [index_file; str "notes.txt"] None).
  intros f Hf Hmd.
  apply list_elem_of_In in Hf. destruct Hf as [<-|[<-|[]]].
  - reflexivity.
  - vm_compute in Hmd. discriminate.
Defined.

(** C9: what a run appends is, in the order of the directory listing,
    the entry line of each name of the listing that ends with [.md], is
    not the name of the index file and has no canonical entry in the set
    read before the loop. *)
Theorem appended_in_listing_order (listing : list text)
    (index : option text) :
  exists names,
    names = List.filter
              (fun f => endswith f (str ".md")
                        && negb (bool_decide (f = index_file))
                        && negb (bool_decide
                                   (canonical f ∈ read_existing_entries index)))
              listing
    /\ sublist names listing
    /\ content_of (synchronize listing index)
       = content_of index ++ concat (List.map written names).
Proof.
  exists (missing (read_existing_entries index) (md_files listing)).
  split; [|split].
  - unfold missing, md_files. apply filter_filter.
  - unfold missing, md_files.
    etransitivity; apply filter_sublist.
  - apply synchronize_content.
Qed.

(** C10 at a failing input: the index is a heading with no line end
    after it.  What [append_to_index] writes for [post1.md] lands on the
    heading's line; the file read back has one line, which does not begin
    with the marker, so the canonical entry is not in the next scan's
    set. *)
Theorem written_entry_not_scanned_unterminated :
  append_to_index post1 (base_url ++ post1) (Some unterminated_index)
  = Some (unterminated_index ++ written post1)
  /\ no_linebreak post1 = true
  /\ file_lines (unterminated_index ++ written post1)
     = [unterminated_index ++ written post1]
  /\ startswith (unterminated_index ++ written post1) (str "- [") = false
  /\ (canonical post1
        ∉ read_existing_entries
            (append_to_index post1 (base_url ++ post1)
               (Some unterminated_index))).
Proof.
  split; [eval_eq|]. split; [eval_eq|]. split; [eval_eq|].
  split; [eval_eq|]. eval_false.
Qed.

(** * Further properties of the script *)

(** ** Properties of the parts *)

(** X1: written after an index that is absent, empty or ends with a line
    break, for a name and a link without line breaks, the entry of
    [append_to_index] is read back by [read_existing_entries]: the set
    after the call is the set before it with the entry [- [name](link)]
    added. *)
Theorem append_to_index_inserts (file_name link : text)
    (index : option text) :
  terminated (content_of index) = true ->
  no_linebreak file_name = true ->
  no_linebreak link = true ->
  read_existing_entries (append_to_index file_name link index)
  = read_existing_entries index
    ∪ {[ str "- [" ++ file_name ++ str "](" ++ link ++ str ")" ]}.
Proof.
  intros Ht Hn Hl. apply set_eq. intros x.
  rewrite elem_of_union, elem_of_singleton, !elem_of_scan.
  rewrite file_lines_append_to_index by assumption. split.
  - intros (line & Hin & Hs & Hx). apply elem_of_app in Hin as [Hin|Hin].
    + left. exists line. auto.
    + right. apply list_elem_of_singleton in Hin. subst line.
      rewrite strip_entry in Hx. congruence.
  - intros [(line & Hin & Hs & Hx) | ->].
    + exists line. split; [apply elem_of_app; left; exact Hin | auto].
    + eexists. split; [apply elem_of_app; right; left|]. split.
      * rewrite <- !app_assoc. apply startswith_app.
      * apply strip_entry.
Qed.

Lemma append_to_index_inserts_witness :
  read_existing_entries
    (append_to_index post2 (str "elsewhere") (Some old_url_index))
  = read_existing_entries (Some old_url_index)
    ∪ {[ str "- [" ++ post2 ++ str "](" ++ str "elsewhere" ++ str ")" ]}.
Proof.
  apply (append_to_index_inserts post2 (str "elsewhere")
           (Some old_url_index)); reflexivity.
Defined.

(** X2: every member of the existing-entry set begins with the marker
    [- [], has no whitespace at either end and holds no line break. *)
Theorem existing_entries_wellformed (index : option text) (x : text) :
  x ∈ read_existing_entries index ->
  startswith x (str "- [") = true
  /\ strip x = x
  /\ no_linebreak x = true.
Proof.
  intros Hx. split; [|split].
  - apply elem_of_scan in Hx as (line & _ & Hs & <-).
    apply startswith_iff in Hs as [r ->].
    rewrite strip_marker_line. apply startswith_app.
  - apply elem_of_scan in Hx as (line & _ & Hs & <-).
    apply startswith_iff in Hs as [r ->].
    apply strip_marker_line_idem.
  - apply (scan_no_linebreak index). exact Hx.
Qed.

Lemma existing_entries_wellformed_witness :
  startswith (canonical post1) (str "- [") = true
  /\ strip (canonical post1) = canonical post1
  /\ no_linebreak (canonical post1) = true.
Proof.
  apply (existing_entries_wellformed (Some padded_index) (canonical post1)).
  eval_true.
Defined.

(** X3: the canonical entry of a name is in the existing-entry set
    exactly when some line of the index is that entry followed by
    whitespace only (its line end, or spaces and tabs before it). *)
Theorem present_iff_line_up_to_whitespace (index : option text) (n : text) :
  canonical n ∈ read_existing_entries index
  <-> exists ws, forallb isspace ws = true
                 /\ canonical n ++ ws ∈ file_lines (content_of index).
Proof.
  rewrite elem_of_scan. split.
  - intros (line & Hin & Hs & Hx).
    apply startswith_iff in Hs as [r ->].
    destruct (rstrip_spec (str "- [" ++ r)) as (ws & Hline & Hws).
    exists ws. split; [exact Hws|].
    rewrite <- Hx. unfold strip.
    change (str "- [" ++ r) with (45 :: (32 :: 91 :: r)) in *.
    rewrite lstrip_nonspace by reflexivity.
    rewrite <- Hline. exact Hin.
  - intros (ws & Hws & Hin). exists (canonical n ++ ws).
    split; [exact Hin|]. split.
    + apply startswith_canonical.
    + apply strip_canonical_spaces. exact Hws.
Qed.

Lemma present_iff_line_up_to_whitespace_witness :
  canonical post1 ∈ read_existing_entries (Some padded_index).
Proof.
  apply (present_iff_line_up_to_whitespace (Some padded_index) post1).
  exists (str " " ++ [LF]). split; [reflexivity|].
  replace (file_lines (content_of (Some padded_index)))
    with [canonical post1 ++ str " " ++ [LF]] by eval_eq.
  left.
Defined.

(** X4: an index saved with CR LF line ends is scanned as the same index
    with LF line ends, and a run appends the same lines to it. *)
Theorem crlf_index_scanned_alike (listing : list text) (content : text) :
  Forall (fun c => c <> CR) content ->
  read_existing_entries (Some (to_crlf content))
  = read_existing_entries (Some content)
  /\ exists appended,
       synchronize listing (Some content) = Some (content ++ appended)
       /\ synchronize listing (Some (to_crlf content))
          = Some (to_crlf content ++ appended).
Proof.
  intros Hcr.
  assert (Hscan : read_existing_entries (Some (to_crlf content))
                  = read_existing_entries (Some content)).
  { unfold read_existing_entries, file_lines.
    rewrite universal_newlines_to_crlf by exact Hcr.
    rewrite universal_newlines_id by exact Hcr. reflexivity. }
  split; [exact Hscan|].
  exists (concat (List.map written
            (missing (read_existing_entries (Some content))
               (md_files listing)))).
  split.
  - destruct (synchronize_exists listing (Some content)) as [c' Hc'];
      [eexists; reflexivity|].
    rewrite Hc'. apply synchronize_some in Hc'. rewrite Hc'. reflexivity.
  - destruct (synchronize_exists listing (Some (to_crlf content)))
      as [c' Hc']; [eexists; reflexivity|].
    rewrite Hc'. apply synchronize_some in Hc'. rewrite Hc', Hscan.
    reflexivity.
Qed.

Lemma crlf_index_scanned_alike_witness :
  to_crlf old_url_index = old_url_entry ++ [CR; LF]
  /\ read_existing_entries (Some (to_crlf old_url_index))
     = read_existing_entries (Some old_url_index).
Proof.
  split; [eval_eq|].
  apply (crlf_index_scanned_alike [post1] old_url_index).
  apply Forall_forall. intros c Hc. apply list_elem_of_In in Hc.
  intros ->. revert Hc. eval_false.
Defined.

(** X5: a name of the listing that does not end with [.md], or that is
    the name of the index file, makes no difference to a run, wherever it
    stands in the listing. *)
Theorem non_candidates_ignored (before after : list text) (f : text)
    (index : option text) :
  endswith f (str ".md") = false \/ f = index_file ->
  synchronize (before ++ f :: after) index
  = synchronize (before ++ after) index.
Proof.
  intros Hf. unfold synchronize.
  replace (md_files (before ++ f :: after)) with (md_files (before ++ after));
    [reflexivity|].
  unfold md_files. rewrite !List.filter_app. cbn [List.filter].
  destruct Hf as [Hf| ->].
  - rewrite Hf. reflexivity.
  - rewrite bool_decide_eq_true_2 by reflexivity.
    rewrite andb_false_r. reflexivity.
Qed.

Lemma non_candidates_ignored_witness :
  synchronize ([post1] ++ index_file :: [post2]) (Some (written post1))
  = synchronize ([post1] ++ [post2]) (Some (written post1)).
Proof.
  apply (non_candidates_ignored [post1] [post2] index_file).
  right. reflexivity.
Defined.

Lemma file_lines_written_all (ns : list text) :
  (forall n, n ∈ ns -> no_linebreak n = true) ->
  concat (List.map (fun n => file_lines (written n)) ns)
  = List.map written ns.
Proof.
  induction ns as [|n ns IH]; intros Hnl; [reflexivity|].
  cbn [List.map concat].
  rewrite file_lines_written by (apply Hnl; left).
  rewrite IH by (intros m Hm; apply Hnl; right; exact Hm). reflexivity.
Qed.

(** ** Properties of runs *)

(** X6: a run that finds no index writes one entry line per candidate,
    in the order of the listing, and writes no file when there is no
    candidate.  When no candidate name holds a line break, the lines of
    the new index are exactly those entry lines and the next scan's set
    is the set of the candidates' canonical entries. *)
Theorem fresh_index_lines (listing : list text) :
  synchronize listing None
  = match md_files listing with
    | [] => None
    | ns => Some (concat (List.map written ns))
    end
  /\ ((forall n, n ∈ md_files listing -> no_linebreak n = true) ->
      file_lines (content_of (synchronize listing None))
      = List.map written (md_files listing)
      /\ read_existing_entries (synchronize listing None)
         = list_to_set (List.map canonical (md_files listing))).
Proof.
  assert (Hrun : synchronize listing None
                 = match md_files listing with
                   | [] => None
                   | ns => Some (concat (List.map written ns))
                   end).
  { unfold synchronize. rewrite loop_spec. cbn [read_existing_entries].
    rewrite missing_empty. reflexivity. }
  split; [exact Hrun|]. intros Hnl.
  assert (Hlines : file_lines (content_of (synchronize listing None))
                   = List.map written (md_files listing)).
  { rewrite synchronize_content. cbn [read_existing_entries].
    rewrite missing_empty. unfold content_of at 1.
    cbn [default from_option id app]. rewrite file_lines_appended.
    apply file_lines_written_all. exact Hnl. }
  split; [exact Hlines|].
  apply set_eq. intros x.
  rewrite elem_of_scan, Hlines, elem_of_list_to_set, !list_elem_of_In.
  rewrite in_map_iff. split.
  - intros (line & Hin & _ & Hx). apply list_elem_of_In in Hin.
    apply in_map_iff in Hin as (n & <- & Hn).
    exists n. rewrite strip_written in Hx. auto.
  - intros (n & <- & Hn). exists (written n). split; [|split].
    + apply list_elem_of_In, in_map. exact Hn.
    + apply startswith_canonical.
    + apply strip_written.
Qed.

Lemma fresh_index_lines_witness :
  file_lines (content_of (synchronize [post1; index_file; post2] None))
  = [written post1; written post2]
  /\ read_existing_entries (synchronize [post1; index_file; post2] None)
     = {[ canonical post1; canonical post2 ]}.
Proof.
  destruct (fresh_index_lines [post1; index_file; post2]) as [_ H].
  destruct H as [Hl Hs].
  - intros n Hn.
    replace (md_files [post1; index_file; post2]) with [post1; post2] in Hn
      by eval_eq.
    apply list_elem_of_In in Hn. destruct Hn as [<-|[<-|[]]]; reflexivity.
  - split; [rewrite Hl; eval_eq | rewrite Hs; eval_eq].
Defined.

(** X7: after a run that found the index absent, empty or ending with a
    line break, and whose candidate names hold no line break, a run over
    the same candidates, or over fewer (files deleted since), appends
    nothing. *)
Theorem rerun_same_or_fewer_files (listing listing' : list text)
    (index : option text) :
  terminated (content_of index) = true ->
  (forall n, n ∈ md_files listing -> no_linebreak n = true) ->
  (forall n, n ∈ md_files listing' -> n ∈ md_files listing) ->
  synchronize listing' (synchronize listing index)
  = synchronize listing index.
Proof.
  intros Ht Hnl Hsub. apply synchronize_nothing_missing, missing_nil.
  intros n Hn. apply scan_after_run_canonical; auto.
Qed.

Lemma rerun_same_or_fewer_files_witness :
  synchronize [index_file; post2] (synchronize [post1; post2] None)
  = synchronize [post1; post2] None.
Proof.
  apply (rerun_same_or_fewer_files [post1; post2] [index_file; post2] None).
  - reflexivity.
  - intros n Hn.
    replace (md_files [post1; post2]) with [post1; post2] in Hn by eval_eq.
    apply list_elem_of_In in Hn. destruct Hn as [<-|[<-|[]]]; reflexivity.
  - intros n Hn.
    replace (md_files [index_file; post2]) with [post2] in Hn by eval_eq.
    apply list_elem_of_singleton in Hn. subst n. eval_true.
Defined.

(** X8: whatever the index was, when no candidate name holds a line
    break the third run of the script over the same listing appends
    nothing: an index without a final line end costs one repeated round
    of entries and no more. *)
Theorem stable_from_second_run (listing : list text) (index : option text) :
  (forall n, n ∈ md_files listing -> no_linebreak n = true) ->
  synchronize listing (synchronize listing (synchronize listing index))
  = synchronize listing (synchronize listing index).
Proof.
  intros Hnl.
  destruct (missing (read_existing_entries index) (md_files listing))
    as [|m ms] eqn:Hm.
  - rewrite !(synchronize_nothing_missing listing index Hm). reflexivity.
  - apply synchronize_idempotent_terminated; [|exact Hnl].
    rewrite synchronize_content, Hm. apply terminated_appended. discriminate.
Qed.

Lemma stable_from_second_run_witness :
  synchronize [post1]
    (synchronize [post1] (synchronize [post1] (Some unterminated_index)))
  = synchronize [post1] (synchronize [post1] (Some unterminated_index)).
Proof.
  apply (stable_from_second_run [post1] (Some unterminated_index)).
  intros n Hn.
  replace (md_files [post1]) with [post1] in Hn by eval_eq.
  apply list_elem_of_singleton in Hn. subst n. reflexivity.
Defined.

(** X9: a run keeps an index that is absent, empty or ends with a line
    break in that state, and a run that changes the index leaves it
    ending with a line feed. *)
Theorem terminated_after_run (listing : list text) (index : option text) :
  (terminated (content_of index) = true ->
   terminated (content_of (synchronize listing index)) = true)
  /\ (synchronize listing index <> index ->
      last (content_of (synchronize listing index)) = Some LF).
Proof.
  destruct (missing (read_existing_entries index) (md_files listing))
    as [|m ms] eqn:Hm.
  - rewrite (synchronize_nothing_missing listing index Hm).
    split; [auto | congruence].
  - rewrite synchronize_content, Hm. split; intros _.
    + apply terminated_appended. discriminate.
    + apply last_appended. discriminate.
Qed.

Lemma terminated_after_run_witness :
  terminated unterminated_index = false
  /\ last (content_of (synchronize [post1] (Some unterminated_index)))
     = Some LF
  /\ terminated
       (content_of (synchronize [post1] (Some (unterminated_index ++ [CR]))))
     = true.
Proof.
  split; [reflexivity|]. split.
  - apply (terminated_after_run [post1] (Some unterminated_index)).
    eval_false.
  - apply (terminated_after_run [post1] (Some (unterminated_index ++ [CR]))).
    reflexivity.
Defined.

(** X10: entries are never lost: what the scan found in an index that is
    absent, empty or ends with a line break, the scan after a run finds
    too, whatever the listing (also for files that are gone). *)
Theorem existing_entries_never_lost (listing : list text)
    (index : option text) :
  terminated (content_of index) = true ->
  read_existing_entries index
  ⊆ read_existing_entries (synchronize listing index).
Proof.
  intros Ht x Hx. apply elem_of_scan_after_run; [exact Ht|]. left. exact Hx.
Qed.

Lemma existing_entries_never_lost_witness :
  read_existing_entries (Some old_url_index)
  ⊆ read_existing_entries (synchronize [post2] (Some old_url_index)).
Proof.
  apply (existing_entries_never_lost [post2] (Some old_url_index)).
  reflexivity.
Defined.

(** X11: two runs in a row, over two listings: when the first run found
    the index absent, empty or ending with a line break and its candidate
    names hold no line break, the second run appends the entry lines of
    exactly the candidates of the second listing that were no candidates
    of the first and whose canonical entry was not in the index before
    the first run, in the order of the second listing. *)
Theorem second_listing_appends_only_new (listing1 listing2 : list text)
    (index : option text) :
  terminated (content_of index) = true ->
  (forall n, n ∈ md_files listing1 -> no_linebreak n = true) ->
  content_of (synchronize listing2 (synchronize listing1 index))
  = content_of (synchronize listing1 index)
    ++ concat (List.map written
         (missing (read_existing_entries index)
            (List.filter
               (fun n => negb (bool_decide (n ∈ md_files listing1)))
               (md_files listing2)))).
Proof.
  intros Ht Hnl. rewrite (synchronize_content listing2).
  do 3 f_equal. unfold missing. rewrite filter_filter.
  apply List.filter_ext. intros n.
  pose proof (canonical_scanned_after_run_iff listing1 index n Ht Hnl) as Hiff.
  destruct (decide (n ∈ md_files listing1)) as [Hin|Hout].
  - rewrite (bool_decide_eq_true_2 (n ∈ md_files listing1)) by exact Hin.
    rewrite bool_decide_eq_true_2 by (apply Hiff; left; exact Hin).
    reflexivity.
  - rewrite (bool_decide_eq_false_2 (n ∈ md_files listing1)) by exact Hout.
    cbn [negb andb]. f_equal. apply bool_decide_ext.
    rewrite Hiff. tauto.
Qed.

Lemma second_listing_appends_only_new_witness :
  content_of (synchronize [post2; post1] (synchronize [post1] None))
  = written post1 ++ written post2.
Proof.
  rewrite (second_listing_appends_only_new [post1] [post2; post1] None).
  - eval_eq.
  - reflexivity.
  - intros n Hn.
    replace (md_files [post1]) with [post1] in Hn by eval_eq.
    apply list_elem_of_singleton in Hn. subst n. reflexivity.
Defined.

(** X12: the order in which the system lists the directory, and a name
    listed more than once, make no difference to the set of entries of
    the index after a run that found it absent, empty or ending with a
    line break. *)
Theorem listing_order_irrelevant (listing listing' : list text)
    (index : option text) :
  (forall n, n ∈ listing <-> n ∈ listing') ->
  terminated (content_of index) = true ->
  read_existing_entries (synchronize listing index)
  = read_existing_entries (synchronize listing' index).
Proof.
  intros Hsame Ht. apply set_eq. intros x.
  rewrite !elem_of_scan_after_run by exact Ht.
  assert (Hm : forall n,
             n ∈ missing (read_existing_entries index) (md_files listing)
             <-> n ∈ missing (read_existing_entries index) (md_files listing')).
  { intros n. rewrite !elem_of_missing, !elem_of_md_files, Hsame.
    reflexivity. }
  split; (intros [H|(n & Hn & H)]; [left; exact H | right]);
    exists n; (split; [apply Hm; exact Hn | exact H]).
Qed.

Lemma listing_order_irrelevant_witness :
  read_existing_entries (synchronize [post1; post2] (Some old_url_index))
  = read_existing_entries
      (synchronize [post2; post1; post2] (Some old_url_index)).
Proof.
  apply (listing_order_irrelevant [post1; post2] [post2; post1; post2]
           (Some old_url_index)).
  - intros n. rewrite !elem_of_cons, !elem_of_nil. tauto.
  - reflexivity.
Defined.

(** X13: a candidate whose name holds a line break (LF or CR) is never
    found by the scan: every run appends its entry line again, whatever
    the index holds. *)
Theorem linebreak_name_always_appended (listing : list text)
    (index : option text) (n : text) :
  n ∈ listing -> endswith n (str ".md") = true -> n <> index_file ->
  no_linebreak n = false ->
  (canonical n ∉ read_existing_entries index)
  /\ exists before after,
       synchronize listing index
       = Some (content_of index ++ concat (List.map written before)
                 ++ written n ++ concat (List.map written after)).
Proof.
  intros Hin Hmd Hne Hnl.
  assert (Hout : canonical n ∉ read_existing_entries index).
  { intros H. apply scan_no_linebreak in H. unfold canonical in H.
    rewrite !no_linebreak_app, Hnl in H.
    rewrite andb_false_l, andb_false_r in H. discriminate. }
  split; [exact Hout|].
  apply missing_entry_appended; [|exact Hout].
  apply elem_of_md_files. auto.
Qed.

Lemma linebreak_name_always_appended_witness :
  (canonical two_line_name
     ∉ read_existing_entries (synchronize [two_line_name] None))
  /\ synchronize [two_line_name] (synchronize [two_line_name] None)
     = Some (written two_line_name ++ written two_line_name).
Proof.
  destruct (linebreak_name_always_appended [two_line_name]
              (synchronize [two_line_name] None) two_line_name)
    as [Hout _].
  - left.
  - reflexivity.
  - eval_false.
  - reflexivity.
  - split; [exact Hout | eval_eq].
Defined.

(** X14: the index after a run is the index before it, byte for byte,
    followed by what [append_to_index] wrote for some candidates (one
    entry and a line feed each); an index that existed still exists. *)
Theorem synchronize_append_only (listing : list text) (index : option text) :
  exists names,
    content_of (synchronize listing index)
    = content_of index ++ concat (List.map written names)
    /\ (forall n, n ∈ names -> n ∈ md_files listing)
    /\ (is_Some index -> is_Some (synchronize listing index)).
Proof.
  exists (missing (read_existing_entries index) (md_files listing)).
  split; [apply synchronize_content|]. split.
  - intros n Hn. apply elem_of_missing in Hn as [Hn _]. exact Hn.
  - apply synchronize_exists.
Qed.

Lemma synchronize_append_only_witness :
  exists names,
    content_of (synchronize [post1; post2] (Some unterminated_index))
    = content_of (Some unterminated_index) ++ concat (List.map written names)
    /\ (forall n, n ∈ names -> n ∈ md_files [post1; post2])
    /\ (is_Some (Some unterminated_index) ->
        is_Some (synchronize [post1; post2] (Some unterminated_index))).
Proof.
  apply (synchronize_append_only [post1; post2] (Some unterminated_index)).
Defined.

(** X15: when the index is absent, empty or ends with a line break and
    no candidate name holds a line break, the lines of the index after a
    run are the lines it had, in their order, followed by one line per
    appended entry, each exactly the canonical entry and a line feed. *)
Theorem lines_kept_on_terminated_index (listing : list text)
    (index : option text) :
  terminated (content_of index) = true ->
  (forall n, n ∈ md_files listing -> no_linebreak n = true) ->
  file_lines (content_of (synchronize listing index))
  = file_lines (content_of index)
    ++ List.map written
         (missing (read_existing_entries index) (md_files listing)).
Proof.
  intros Ht Hnl. rewrite synchronize_content.
  rewrite file_lines_synchronize by exact Ht. f_equal.
  apply file_lines_written_all. intros n Hn. apply Hnl.
  apply elem_of_missing in Hn as [Hn _]. exact Hn.
Qed.

Lemma lines_kept_on_terminated_index_witness :
  file_lines (content_of (synchronize [post1; post2] (Some old_url_index)))
  = [old_url_index; written post1; written post2].
Proof.
  rewrite (lines_kept_on_terminated_index [post1; post2]
             (Some old_url_index)).
  - eval_eq.
  - reflexivity.
  - intros n Hn.
    replace (md_files [post1; post2]) with [post1; post2] in Hn by eval_eq.
    apply list_elem_of_In in Hn. destruct Hn as [<-|[<-|[]]]; reflexivity.
Defined.
